(** * CbcHeuristic.hpp: the heuristic classes of Cbc

    A shallow embedding of [src/Cbc/src/CbcHeuristic.hpp].  The header
    defines inline the node-history list ([CbcHeuristicNodeList]), the
    configuration accessors of the base class [CbcHeuristic], its default
    [validate] and its default cut-time [solution]; these are translated
    from the C++ text.  The bodies of the other member functions are only
    declared there.  Of these, [smallBranchAndBound] and
    [CbcRounding::solution] are modelled from the design document and
    marked as such; [farFrom], the copy operations of the list and the
    [solution] members of [CbcHeuristicPartial] and [CbcSerendipity] are
    left out, the header and the design document not agreeing on, or not
    fixing, what they compute.

    Conventions.
    - A C++ [int] is carried as a [Z]; the header performs no arithmetic on
      its [int] fields, it only stores and returns them.
    - A C++ [double] is carried as a rational [Q]; comparisons are the exact
      ones, no rounding error and no NaN are modelled.
    - A pointer is [NULL] or an address; a reference parameter ([T*&],
      [double&]) is an argument that is also returned.
    - A member function that may change the object returns the new object;
      a [const] one returns only its result. *)

From Stdlib Require Import List ZArith QArith Qround Bool Lia String.
Import ListNotations.

Local Open Scope Z_scope.

(** ** Pointers and scalar types *)

Inductive ptr : Type :=
| NULL
| Addr (a : positive).

Definition ptr_eqb (p q : ptr) : bool :=
  match p, q with
  | NULL, NULL => true
  | Addr a, Addr b => Pos.eqb a b
  | _, _ => false
  end.

Definition isNull (p : ptr) : bool := ptr_eqb p NULL.

Definition int := Z.
Definition double := Q.

(** ** class CbcHeuristicNode (lines 21-35)

    The branching decisions made to reach the node a heuristic was invoked
    from.  The header declares the count and the array of branching
    objects; an object may be listed several times. *)

Record CbcHeuristicNode : Type := mkNode {
  numObjects_ : int;
  brObj_ : list ptr
}.

(** ** class CbcHeuristicNodeList (lines 37-59) *)

Module CbcHeuristicNodeList.

(** [std::vector<CbcHeuristicNode*> nodes_]. *)
Record t : Type := mk { nodes_ : list ptr }.

(** [CbcHeuristicNodeList() {}] *)
Definition new : t := mk [].

(** [void append(CbcHeuristicNode*& node)]:
    [nodes_.push_back(node); node = NULL;]
    The result is the list and the caller's handle after the call. *)
Definition append (l : t) (node : ptr) : t * ptr :=
  (mk (nodes_ l ++ [node]), NULL).

(** [void append(CbcHeuristicNodeList& nodes)]:
    [nodes_.insert(nodes_.end(), nodes.begin(), nodes.end()); nodes.clear();]
    for two distinct lists.  The result is the receiving list and the
    argument list after the call. *)
Definition append_list (l nodes : t) : t * t :=
  (mk (nodes_ l ++ nodes_ nodes), mk []).

(** [nodes_.size()] *)
Definition size (l : t) : nat := List.length (nodes_ l).

(** A caller that appends the handles [hs] one after the other, each
    through its own variable; the handles after the calls are returned
    with the list. *)
Fixpoint append_all (l : t) (hs : list ptr) : t * list ptr :=
  match hs with
  | [] => (l, [])
  | h :: hs' =>
      let '(l1, h1) := append l h in
      let '(l2, hs2) := append_all l1 hs' in
      (l2, h1 :: hs2)
  end.

(** The invariant of the design document: no stored entry is null. *)
Definition noNull (l : t) : bool :=
  forallb (fun p => negb (isNull p)) (nodes_ l).

End CbcHeuristicNodeList.

(** Whether two records share a branching object. *)
Definition sharesObject (a b : CbcHeuristicNode) : bool :=
  existsb (fun o => existsb (ptr_eqb o) (brObj_ b)) (brObj_ a).

(** ** External collaborators

    [CoinThreadRandom], [CoinPackedMatrix], [OsiSolverInterface] and
    [CbcModel] are only named by the header (lines 8-14); they belong to
    CoinUtils, Osi and the rest of Cbc.  They are described here as far as
    the heuristics use them, following section 6 of the design document. *)

Local Open Scope Q_scope.

Definition Qlt_bool (x y : Q) : bool := negb (Qle_bool y x).

(** Modelled from the spec: [CoinThreadRandom] (CoinUtils) is not in the
    header.  A seeded generator is the fixed sequence of doubles it will
    produce, with the number of draws made so far; "mutated on every
    draw". *)
Record CoinThreadRandom : Type := mkRandom {
  sequence : nat -> double;
  drawn : nat
}.

Definition randomDouble (g : CoinThreadRandom) : double * CoinThreadRandom :=
  (sequence g (drawn g), mkRandom (sequence g) (S (drawn g))).

(** [CoinPackedMatrix] ordered by row: a row is its (column, element)
    pairs. *)
Definition PackedVector : Type := list (nat * double).
Definition CoinPackedMatrix : Type := list PackedVector.

(** Modelled from the spec: the tree of relaxations a branch-and-bound
    solve walks.  A node's relaxation is infeasible, or has an integer
    solution [x] of objective [value], or is fractional with objective
    [bound] and two children. *)
Inductive SearchTree : Type :=
| Infeasible
| Integral (x : list double) (value : double)
| Fractional (bound : double) (down up : SearchTree).

(** Modelled from the spec: [OsiSolverInterface] (Osi) is not in the
    header.  "A clonable relaxation/MIP-capable solver object supporting
    bound tightening, a bounded-node branch-and-bound solve, and retrieval
    of best solution/value": the column bounds, and the search tree of the
    problem under given column bounds. *)
Record OsiSolverInterface : Type := mkSolver {
  colLower : list double;
  colUpper : list double;
  searchTree : list double -> list double -> SearchTree
}.

Definition branchTree (s : OsiSolverInterface) : SearchTree :=
  searchTree s (colLower s) (colUpper s).

(** A constraint row: its elements and its two bounds, [None] for an
    infinite one. *)
Record Row : Type := mkRow {
  elements : PackedVector;
  rowLower : option double;
  rowUpper : option double
}.

(** Modelled from the spec: [CbcModel] is forward-declared at line 14.
    Section 6: "current relaxation solution vector, ..., variable bounds,
    branching-priority metadata"; the solver it owns; and the feasible
    point the solver's own embedded heuristics may have left behind
    (section 4.6), with its objective value. *)
Record CbcModel : Type := mkModel {
  numberColumns : nat;
  currentSolution : list double;
  integerVariable : list bool;
  objective : list double;
  rows : list Row;
  priority : list int;
  solver : OsiSolverInterface;
  solverSolution : option (list double * double)
}.

(** *** Feasibility of a point for a model *)

Definition isIntegral (x : double) : bool :=
  Qeq_bool x (inject_Z (Qfloor x)).

Fixpoint activity (row : PackedVector) (x : list double) : double :=
  match row with
  | [] => 0
  | (j, a) :: row' => a * nth j x 0 + activity row' x
  end.

Definition rowSatisfied (x : list double) (r : Row) : bool :=
  let act := activity (elements r) x in
  match rowLower r with Some lo => Qle_bool lo act | None => true end
  && match rowUpper r with Some up => Qle_bool act up | None => true end.

Definition rowsSatisfied (m : CbcModel) (x : list double) : bool :=
  forallb (rowSatisfied x) (rows m).

Definition columnInBounds (m : CbcModel) (x : list double) (j : nat) : bool :=
  Qle_bool (nth j (colLower (solver m)) 0) (nth j x 0)
  && Qle_bool (nth j x 0) (nth j (colUpper (solver m)) 0).

Definition columnsInBounds (m : CbcModel) (x : list double) : bool :=
  forallb (columnInBounds m x) (seq 0 (numberColumns m)).

Fixpoint dot (c x : list double) : double :=
  match c, x with
  | cj :: c', xj :: x' => cj * xj + dot c' x'
  | _, _ => 0
  end.

Definition objectiveOf (m : CbcModel) (x : list double) : double :=
  dot (objective m) x.

Local Open Scope Z_scope.

(** *** The bounded search of section 4.3 *)

Definition Incumbent : Type := option (list double * double).

(** Modelled from the spec: "a bounded-size branch-and-bound solve".
    Nodes wait on a stack; evaluating one costs one unit of the node
    budget.  An infeasible node, or one whose relaxation is no better than
    the cutoff, is dropped; an integer solution better than the cutoff
    becomes the incumbent and the new cutoff; a fractional node is replaced
    by its children.  The result says whether the stack was emptied
    ("finished") before the budget ran out, with the incumbent. *)
Fixpoint search (budget : nat) (stack : list SearchTree) (cutoff : double)
    (best : Incumbent) {struct budget} : bool * Incumbent :=
  match stack with
  | [] => (true, best)
  | node :: rest =>
      match budget with
      | O => (false, best)
      | S b =>
          match node with
          | Infeasible => search b rest cutoff best
          | Integral x v =>
              if Qlt_bool v cutoff
              then search b rest v (Some (x, v))
              else search b rest cutoff best
          | Fractional lb l r =>
              if Qle_bool cutoff lb
              then search b rest cutoff best
              else search b (l :: r :: rest) cutoff best
          end
      end
  end.

(** The same walk without a budget, by recursion on the tree: the number
    of nodes evaluated, the final cutoff and the final incumbent. *)
Fixpoint explore (t : SearchTree) (cutoff : double) (best : Incumbent)
    : nat * double * Incumbent :=
  match t with
  | Infeasible => (1%nat, cutoff, best)
  | Integral x v =>
      if Qlt_bool v cutoff then (1%nat, v, Some (x, v))
      else (1%nat, cutoff, best)
  | Fractional lb l r =>
      if Qle_bool cutoff lb then (1%nat, cutoff, best)
      else
        let '(n1, c1, b1) := explore l cutoff best in
        let '(n2, c2, b2) := explore r c1 b1 in
        (S (n1 + n2), c2, b2)
  end.

Fixpoint exploreStack (stack : list SearchTree) (cutoff : double)
    (best : Incumbent) : nat * double * Incumbent :=
  match stack with
  | [] => (O, cutoff, best)
  | t :: rest =>
      let '(n1, c1, b1) := explore t cutoff best in
      let '(n2, c2, b2) := exploreStack rest c1 b1 in
      ((n1 + n2)%nat, c2, b2)
  end.

(** The number of nodes the restricted problem needs to be solved to
    proof, for a given cutoff. *)
Definition nodesToProof (s : OsiSolverInterface) (cutoff : double) : nat :=
  fst (fst (explore (branchTree s) cutoff None)).

(** Whether the tree holds an integer solution better than the cutoff. *)
Fixpoint improving (cutoff : double) (t : SearchTree) : bool :=
  match t with
  | Infeasible => false
  | Integral _ v => Qlt_bool v cutoff
  | Fractional _ l r => improving cutoff l || improving cutoff r
  end.

(** Whether the tree holds an integer solution at all. *)
Fixpoint hasIntegral (t : SearchTree) : bool :=
  match t with
  | Infeasible => false
  | Integral _ _ => true
  | Fractional _ l r => hasIntegral l || hasIntegral r
  end.

(** A relaxation bounds the solutions below it. *)
Fixpoint leavesAtLeast (lb : double) (t : SearchTree) : bool :=
  match t with
  | Infeasible => true
  | Integral _ v => Qle_bool lb v
  | Fractional _ l r => leavesAtLeast lb l && leavesAtLeast lb r
  end.

Fixpoint validBounds (t : SearchTree) : bool :=
  match t with
  | Fractional lb l r =>
      leavesAtLeast lb l && leavesAtLeast lb r
      && validBounds l && validBounds r
  | _ => true
  end.

(** ** class CbcHeuristic (lines 64-201) *)

Module CbcHeuristic.

Record t : Type := mk {
  model_ : ptr;
  when_ : int;
  numberNodes_ : int;
  feasibilityPumpOptions_ : int;
  fractionSmall_ : double;
  randomNumberGenerator_ : CoinThreadRandom;
  heuristicName_ : string;
  howOften_ : int;
  decayFactor_ : double;
  runNodes_ : ptr
}.

(** [inline void setWhen(int value) { when_=value;}] *)
Definition setWhen (h : t) (value : int) : t :=
  mk (model_ h) value (numberNodes_ h) (feasibilityPumpOptions_ h)
     (fractionSmall_ h) (randomNumberGenerator_ h) (heuristicName_ h)
     (howOften_ h) (decayFactor_ h) (runNodes_ h).

(** [inline int when() const { return when_;}] *)
Definition when (h : t) : int := when_ h.

(** [inline void setNumberNodes(int value) { numberNodes_=value;}] *)
Definition setNumberNodes (h : t) (value : int) : t :=
  mk (model_ h) (when_ h) value (feasibilityPumpOptions_ h)
     (fractionSmall_ h) (randomNumberGenerator_ h) (heuristicName_ h)
     (howOften_ h) (decayFactor_ h) (runNodes_ h).

(** [inline int numberNodes() const { return numberNodes_;}] *)
Definition numberNodes (h : t) : int := numberNodes_ h.

(** [inline void setFeasibilityPumpOptions(int value)] *)
Definition setFeasibilityPumpOptions (h : t) (value : int) : t :=
  mk (model_ h) (when_ h) (numberNodes_ h) value
     (fractionSmall_ h) (randomNumberGenerator_ h) (heuristicName_ h)
     (howOften_ h) (decayFactor_ h) (runNodes_ h).

(** [inline int feasibilityPumpOptions() const] *)
Definition feasibilityPumpOptions (h : t) : int := feasibilityPumpOptions_ h.

(** [inline void setModelOnly(CbcModel * model) { model_ = model;}] *)
Definition setModelOnly (h : t) (model : ptr) : t :=
  mk model (when_ h) (numberNodes_ h) (feasibilityPumpOptions_ h)
     (fractionSmall_ h) (randomNumberGenerator_ h) (heuristicName_ h)
     (howOften_ h) (decayFactor_ h) (runNodes_ h).

(** [inline void setFractionSmall(double value) { fractionSmall_=value;}] *)
Definition setFractionSmall (h : t) (value : double) : t :=
  mk (model_ h) (when_ h) (numberNodes_ h) (feasibilityPumpOptions_ h)
     value (randomNumberGenerator_ h) (heuristicName_ h)
     (howOften_ h) (decayFactor_ h) (runNodes_ h).

(** [inline double fractionSmall() const { return fractionSmall_;}] *)
Definition fractionSmall (h : t) : double := fractionSmall_ h.

(** [inline void setHeuristicName(const char *name)] *)
Definition setHeuristicName (h : t) (name : string) : t :=
  mk (model_ h) (when_ h) (numberNodes_ h) (feasibilityPumpOptions_ h)
     (fractionSmall_ h) (randomNumberGenerator_ h) name
     (howOften_ h) (decayFactor_ h) (runNodes_ h).

(** [inline const char *heuristicName() const] *)
Definition heuristicName (h : t) : string := heuristicName_ h.

(** [virtual void validate() {}] (line 111): the body is empty. *)
Definition validate (h : t) : t := h.

(** [virtual bool canDealWithOdd() const { return false;}] *)
Definition canDealWithOdd (h : t) : bool := false.

(** The cut-time entry point (lines 105-108),
    [virtual int solution(double & objectiveValue, double * newSolution,
                          OsiCuts & cs, CbcHeuristicInfo* info = NULL)
     {return 0;}]
    returns the code with the two outputs as they are after the call. *)
Definition solution_cuts (h : t) (objectiveValue : double)
    (newSolution : list double) : int * double * list double :=
  (0, objectiveValue, newSolution).

(** Modelled from the spec: [smallBranchAndBound] is declared at lines
    154-156, its body is not in the header.  Lines 147-152 give the four
    return codes: 0 not finished - no solution, 1 not finished - solution,
    2 finished - no solution, 3 finished - solution.  Section 4.3: the
    search is run on the solver handed in with [numberNodes] as node
    budget; "on a found solution, the best integer solution and its
    objective value are written out".  The result is the heuristic after
    the call (the member is declared [const]), the return code, and what
    is assigned to [newSolution] and [newSolutionValue], [None] when
    neither is assigned. *)
Definition smallBranchAndBound (h : t) (solver : OsiSolverInterface)
    (numberNodes : int) (cutoff : double) (name : string)
    : t * int * Incumbent :=
  let '(finished, best) :=
    search (Z.to_nat numberNodes) [branchTree solver] cutoff None in
  (h,
   (if finished then 2 else 0)
   + (match best with Some _ => 1 | None => 0 end),
   best).

(** The two output parameters after a call that assigned [w]. *)
Definition assigned (w : Incumbent) (newSolution : list double)
    (newSolutionValue : double) : list double * double :=
  match w with
  | Some (x, v) => (x, v)
  | None => (newSolution, newSolutionValue)
  end.

(** A caller that runs [validate] [n] times in a row. *)
Fixpoint validate_n (n : nat) (h : t) : t :=
  match n with
  | O => h
  | S k => validate_n k (validate h)
  end.

End CbcHeuristic.

(** ** Rounding to the nearest integer *)

Local Open Scope Q_scope.

Definition nearest (x : double) : Z := Qfloor (x + (1 # 2)).

Definition fractionalPart (x : double) : double := x - inject_Z (Qfloor x).

Local Open Scope Z_scope.

(** ** class CbcRounding (lines 205-279) *)

Module CbcRounding.

Record t : Type := mk {
  base : CbcHeuristic.t;
  matrix_ : CoinPackedMatrix;
  matrixByRow_ : CoinPackedMatrix;
  down_ : list Z;
  up_ : list Z;
  equal_ : list Z;
  seed_ : int
}.


(** The heuristic after draws from its generator. *)
Definition withGenerator (r : t) (g : CoinThreadRandom) : t :=
  let b := base r in
  mk (CbcHeuristic.mk (CbcHeuristic.model_ b) (CbcHeuristic.when_ b)
        (CbcHeuristic.numberNodes_ b)
        (CbcHeuristic.feasibilityPumpOptions_ b)
        (CbcHeuristic.fractionSmall_ b) g (CbcHeuristic.heuristicName_ b)
        (CbcHeuristic.howOften_ b) (CbcHeuristic.decayFactor_ b)
        (CbcHeuristic.runNodes_ b))
     (matrix_ r) (matrixByRow_ r) (down_ r) (up_ r) (equal_ r) (seed_ r).

(** A lock vector read as the design document does, one bit per
    variable. *)
Definition lockSet (locks : list Z) (j : nat) : bool :=
  negb (nth j locks 0 =? 0).

(** Modelled from the spec: section 4.4, "for each fractional integer
    variable, if its equality-lock bit is set, snap to nearest integer;
    else if exactly one of up/down is locked safe, round that direction;
    else round using the fractional part compared against a random
    threshold drawn from the heuristic's private stream". *)
Definition roundColumn (r : t) (m : CbcModel) (j : nat) (x : double)
    (g : CoinThreadRandom) : double * CoinThreadRandom :=
  if nth j (integerVariable m) false && negb (isIntegral x) then
    if lockSet (equal_ r) j then (inject_Z (nearest x), g)
    else
      match lockSet (up_ r) j, lockSet (down_ r) j with
      | true, false => (inject_Z (Qceiling x), g)
      | false, true => (inject_Z (Qfloor x), g)
      | _, _ =>
          let '(threshold, g') := randomDouble g in
          (if Qlt_bool threshold (fractionalPart x)
           then inject_Z (Qceiling x) else inject_Z (Qfloor x), g')
      end
  else (x, g).

(** The columns from [j] on, in order, threading the generator. *)
Fixpoint roundFrom (r : t) (m : CbcModel) (j : nat) (xs : list double)
    (g : CoinThreadRandom) : list double * CoinThreadRandom :=
  match xs with
  | [] => ([], g)
  | x :: xs' =>
      let '(v, g1) := roundColumn r m j x g in
      let '(vs, g2) := roundFrom r m (S j) xs' g1 in
      (v :: vs, g2)
  end.

(** The fully rounded point of the current relaxation solution. *)
Definition roundedPoint (r : t) (m : CbcModel) : list double :=
  fst (roundFrom r m 0 (currentSolution m)
         (CbcHeuristic.randomNumberGenerator_ (base r))).

(** Modelled from the spec: [CbcRounding::solution] is declared at lines
    240-241, its body is not in the header.  Section 4.4: "after all
    variables are rounded, the resulting point must be re-validated
    against the full constraint set ... before being reported as
    IMPROVED; any violated row makes the attempt a NO_SOLUTION"; section
    4.1 and lines 235-238: 1 only "with better objective value than one
    passed in", and the outputs are set only then.  The constraint set is
    taken as the rows and the column bounds.  The result is the code,
    [objectiveValue] and [newSolution] after the call, and the heuristic
    with its generator advanced. *)
Definition solution (r : t) (m : CbcModel) (objectiveValue : double)
    (newSolution : list double) : int * double * list double * t :=
  let '(x, g) :=
    roundFrom r m 0 (currentSolution m)
      (CbcHeuristic.randomNumberGenerator_ (base r)) in
  let r' := withGenerator r g in
  if rowsSatisfied m x && columnsInBounds m x then
    let v := objectiveOf m x in
    if Qlt_bool v objectiveValue then (1, v, x, r')
    else (0, objectiveValue, newSolution, r')
  else (0, objectiveValue, newSolution, r').

End CbcRounding.

(** ** class CbcHeuristicPartial (lines 286-339) *)

Module CbcHeuristicPartial.

Record t : Type := mk {
  base : CbcHeuristic.t;
  fixPriority_ : int
}.


End CbcHeuristicPartial.

(** ** class CbcSerendipity (lines 345-389) *)

Module CbcSerendipity.

Record t : Type := mk { base : CbcHeuristic.t }.

(** The class does not declare [validate]: it inherits the one of
    [CbcHeuristic]. *)
Definition validate (s : t) : t := mk (CbcHeuristic.validate (base s)).

End CbcSerendipity.

(** ** The free store and ~CbcHeuristicNodeList (lines 44-48) *)

(** The objects allocated by [new] that are alive, by address. *)
Definition Heap : Type := positive -> bool.

Definition release (a : positive) (h : Heap) : Heap :=
  fun b => if Pos.eqb a b then false else h b.

(** [delete p]: nothing for a null pointer, the release of a live object,
    and undefined ([None]) for anything else, as a second [delete] of the
    same object is. *)
Definition delete (p : ptr) (h : Heap) : option Heap :=
  match p with
  | NULL => Some h
  | Addr a => if h a then Some (release a h) else None
  end.

(** The conversion of a value to a 32-bit [int]. *)
Definition to_int (z : Z) : Z :=
  let r := z mod 2 ^ 32 in
  if r <? 2 ^ 31 then r else r - 2 ^ 32.

(** [int i = nodes_.size() - 1]: the subtraction is done in [size_t]
    (64 bits, wrapping around for an empty vector), the result is then
    converted to [int]. *)
Definition lastIndex (l : CbcHeuristicNodeList.t) : Z :=
  to_int ((Z.of_nat (CbcHeuristicNodeList.size l) - 1) mod 2 ^ 64).

(** [for (...; i >= 0; --i) { delete nodes_[i]; }] with [k = i + 1]
    iterations to go: the entry of index [k - 1] is deleted first.  An
    index outside the vector is undefined. *)
Fixpoint deleteDown (k : nat) (nodes : list ptr) (h : Heap) : option Heap :=
  match k with
  | O => Some h
  | S i =>
      match nth_error nodes i with
      | Some p =>
          match delete p h with
          | Some h' => deleteDown i nodes h'
          | None => None
          end
      | None => None
      end
  end.

(** [~CbcHeuristicNodeList()]. *)
Definition destroy (l : CbcHeuristicNodeList.t) (h : Heap) : option Heap :=
  deleteDown (Z.to_nat (lastIndex l + 1)) (CbcHeuristicNodeList.nodes_ l) h.

(** The addresses a vector of pointers holds, nulls left out. *)
Fixpoint addresses (ps : list ptr) : list positive :=
  match ps with
  | [] => []
  | NULL :: ps' => addresses ps'
  | Addr a :: ps' => a :: addresses ps'
  end.

Definition holds (ps : list ptr) (a : positive) : bool :=
  existsb (Pos.eqb a) (addresses ps).

(** The pointers of a vector deleted one after the other, first to last. *)
Fixpoint deleteList (ps : list ptr) (h : Heap) : option Heap :=
  match ps with
  | [] => Some h
  | p :: ps' =>
      match delete p h with
      | Some h' => deleteList ps' h'
      | None => None
      end
  end.

(** What the deletion of a vector of pointers needs of the free store: its
    addresses are pairwise distinct and alive. *)
Definition Deletable (ps : list ptr) (h : Heap) : Prop :=
  NoDup (addresses ps) /\ forall a, In a (addresses ps) -> h a = true.

(** ** Sequences of calls of the inline setters *)

Module Calls.

(** A call of one of the inline members of [CbcHeuristic] that may change
    the object (lines 111-169). *)
Inductive Base : Type :=
| SetWhen (value : int)
| SetNumberNodes (value : int)
| SetFeasibilityPumpOptions (value : int)
| SetModelOnly (model : ptr)
| SetFractionSmall (value : double)
| SetHeuristicName (name : string)
| Validate.

Definition call (h : CbcHeuristic.t) (c : Base) : CbcHeuristic.t :=
  match c with
  | SetWhen v => CbcHeuristic.setWhen h v
  | SetNumberNodes v => CbcHeuristic.setNumberNodes h v
  | SetFeasibilityPumpOptions v => CbcHeuristic.setFeasibilityPumpOptions h v
  | SetModelOnly m => CbcHeuristic.setModelOnly h m
  | SetFractionSmall v => CbcHeuristic.setFractionSmall h v
  | SetHeuristicName n => CbcHeuristic.setHeuristicName h n
  | Validate => CbcHeuristic.validate h
  end.

Definition run (h : CbcHeuristic.t) (cs : list Base) : CbcHeuristic.t :=
  fold_left call cs h.

(** The argument of the last call in [cs] that [pick] selects, [d] when
    there is none. *)
Definition lastOf {A : Type} (pick : Base -> option A) (cs : list Base)
    (d : A) : A :=
  fold_left (fun acc c => match pick c with Some v => v | None => acc end)
    cs d.

Definition whenOf (c : Base) : option int :=
  match c with SetWhen v => Some v | _ => None end.
Definition numberNodesOf (c : Base) : option int :=
  match c with SetNumberNodes v => Some v | _ => None end.
Definition feasibilityPumpOptionsOf (c : Base) : option int :=
  match c with SetFeasibilityPumpOptions v => Some v | _ => None end.
Definition modelOf (c : Base) : option ptr :=
  match c with SetModelOnly m => Some m | _ => None end.
Definition fractionSmallOf (c : Base) : option double :=
  match c with SetFractionSmall v => Some v | _ => None end.
Definition heuristicNameOf (c : Base) : option string :=
  match c with SetHeuristicName n => Some n | _ => None end.











End Calls.

(** ** A worked instance: the knapsack of section 8

    Three 0/1 items of weights 2, 3 and 1 and values 5, 4 and 3, written as
    a minimisation; the relaxation solution is [0.7, 0.3, 0.9].  The
    restricted search with the first two items fixed has the two integer
    solutions [1,0,0] and [1,0,1]. *)

Module Knapsack.

Local Open Scope Q_scope.

Definition tree : SearchTree :=
  Fractional (-9) (Integral [1; 0; 0] (-5)) (Integral [1; 0; 1] (-8)).

Definition knapsackSolver : OsiSolverInterface :=
  mkSolver [0; 0; 0] [1; 1; 1] (fun _ _ => tree).

Definition model (capacity : double) : CbcModel :=
  mkModel 3 [7 # 10; 3 # 10; 9 # 10] [true; true; true] [-5; -4; -3]
    [mkRow [(0%nat, 2); (1%nat, 3); (2%nat, 1)] None (Some capacity)]
    [1000%Z; 1000%Z; 20000%Z] knapsackSolver (Some ([1; 0; 1], -8)).

Definition generator : CoinThreadRandom := mkRandom (fun _ => 1 # 2) 0.

Definition heuristic : CbcHeuristic.t :=
  CbcHeuristic.mk (Addr 1) 3%Z 200%Z (-1)%Z 1 generator "heuristic" 1%Z 0 NULL.

Definition rounding : CbcRounding.t :=
  CbcRounding.mk heuristic [] [] [0; 0; 0]%Z [0; 0; 0]%Z [0; 0; 0]%Z 0%Z.

End Knapsack.

(** * Properties *)

(** ** The node list *)

Lemma ptr_eqb_refl (p : ptr) : ptr_eqb p p = true.
Proof. destruct p; simpl; [reflexivity | apply Pos.eqb_refl]. Qed.

Lemma ptr_eqb_eq (p q : ptr) : ptr_eqb p q = true <-> p = q.
Proof.
  destruct p as [|a], q as [|b]; simpl; split; intro H;
    try reflexivity; try discriminate.
  - apply Pos.eqb_eq in H. now subst.
  - injection H as ->. apply Pos.eqb_refl.
Qed.

Lemma isNull_false (p : ptr) : isNull p = false <-> p <> NULL.
Proof. destruct p; simpl; split; congruence. Qed.

Lemma append_all_size (hs : list ptr) (l : CbcHeuristicNodeList.t) :
  CbcHeuristicNodeList.size (fst (CbcHeuristicNodeList.append_all l hs))
  = (CbcHeuristicNodeList.size l + List.length hs)%nat.
Proof.
  revert l. induction hs as [|h hs IH]; intro l; simpl.
  - lia.
  - specialize (IH (CbcHeuristicNodeList.mk (CbcHeuristicNodeList.nodes_ l ++ [h]))).
    destruct (CbcHeuristicNodeList.append_all _ hs) as [l2 hs2] eqn:E.
    simpl in *. rewrite IH. unfold CbcHeuristicNodeList.size. simpl.
    rewrite length_app. simpl. lia.
Qed.

Lemma append_all_handles (hs : list ptr) (l : CbcHeuristicNodeList.t) :
  snd (CbcHeuristicNodeList.append_all l hs) = map (fun _ => NULL) hs.
Proof.
  revert l. induction hs as [|h hs IH]; intro l; simpl.
  - reflexivity.
  - specialize (IH (CbcHeuristicNodeList.mk (CbcHeuristicNodeList.nodes_ l ++ [h]))).
    destruct (CbcHeuristicNodeList.append_all _ hs) as [l2 hs2] eqn:E.
    simpl in *. now rewrite IH.
Qed.

Lemma noNull_app (a b : list ptr) :
  CbcHeuristicNodeList.noNull (CbcHeuristicNodeList.mk (a ++ b))
  = CbcHeuristicNodeList.noNull (CbcHeuristicNodeList.mk a)
    && CbcHeuristicNodeList.noNull (CbcHeuristicNodeList.mk b).
Proof. unfold CbcHeuristicNodeList.noNull. simpl. apply forallb_app. Qed.

(** C3.  [append(node)] on a list of length n stores the handle's value as
    the new last element: the length becomes n+1, the n elements stored
    before are unchanged and in the same order, and the caller's handle is
    null after the call.  Consequently, after the handles [hs] have been
    appended to a new list, its length is the number of handles and every
    handle is null. *)
Theorem append_transfers_record :
  forall (l : CbcHeuristicNodeList.t) (r : ptr),
    (let '(l', r') := CbcHeuristicNodeList.append l r in
     CbcHeuristicNodeList.size l' = S (CbcHeuristicNodeList.size l)
     /\ nth_error (CbcHeuristicNodeList.nodes_ l') (CbcHeuristicNodeList.size l)
        = Some r
     /\ firstn (CbcHeuristicNodeList.size l) (CbcHeuristicNodeList.nodes_ l')
        = CbcHeuristicNodeList.nodes_ l
     /\ r' = NULL)
    /\ (forall hs : list ptr,
          let '(l', hs') :=
            CbcHeuristicNodeList.append_all CbcHeuristicNodeList.new hs in
          CbcHeuristicNodeList.size l' = List.length hs
          /\ hs' = map (fun _ => NULL) hs).
Proof.
  intros l r. split.
  - unfold CbcHeuristicNodeList.append, CbcHeuristicNodeList.size. simpl.
    repeat split.
    + rewrite length_app. simpl. lia.
    + rewrite nth_error_app2 by lia. now rewrite Nat.sub_diag.
    + rewrite firstn_app, Nat.sub_diag, firstn_all. simpl. apply app_nil_r.
  - intro hs.
    pose proof (append_all_size hs CbcHeuristicNodeList.new) as Hs.
    pose proof (append_all_handles hs CbcHeuristicNodeList.new) as Hh.
    destruct (CbcHeuristicNodeList.append_all _ hs) as [l' hs'].
    simpl in *. split; assumption.
Qed.

(** C4, as stated, fails: a list without a null entry holds one after
    [append] is given a null handle, as when a handle that an earlier
    [append] has set to null is appended again. *)
Lemma append_null_handle_stores_null :
  CbcHeuristicNodeList.noNull CbcHeuristicNodeList.new = true
  /\ (let '(l1, h1) :=
        CbcHeuristicNodeList.append CbcHeuristicNodeList.new (Addr 1) in
      let '(l2, h2) := CbcHeuristicNodeList.append l1 h1 in
      CbcHeuristicNodeList.noNull l1 = true
      /\ CbcHeuristicNodeList.nodes_ l2 = [Addr 1; NULL]
      /\ CbcHeuristicNodeList.noNull l2 = false).
Proof. repeat split. Qed.

(** C4, amended.  A new list has no null entry; [append(node)] with a
    handle that is not null, and [append(nodes)] of a list without a null
    entry, keep a list without a null entry so, and the list emptied by
    the bulk append has none either. *)
Theorem noNull_preserved :
  forall (l nodes : CbcHeuristicNodeList.t) (r : ptr),
    CbcHeuristicNodeList.noNull l = true ->
    CbcHeuristicNodeList.noNull nodes = true ->
    r <> NULL ->
    CbcHeuristicNodeList.noNull CbcHeuristicNodeList.new = true
    /\ CbcHeuristicNodeList.noNull (fst (CbcHeuristicNodeList.append l r)) = true
    /\ CbcHeuristicNodeList.noNull
         (fst (CbcHeuristicNodeList.append_list l nodes)) = true
    /\ CbcHeuristicNodeList.noNull
         (snd (CbcHeuristicNodeList.append_list l nodes)) = true.
Proof.
  intros [a] [b] r Hl Hn Hr. simpl. repeat split.
  - rewrite noNull_app, Hl. unfold CbcHeuristicNodeList.noNull. simpl.
    apply isNull_false in Hr. now rewrite Hr.
  - now rewrite noNull_app, Hl, Hn.
Qed.

(** The amended C4 on the list [[Addr 1]]: a record and a two-record list
    are appended. *)
Lemma noNull_preserved_witness :
  CbcHeuristicNodeList.noNull
    (fst (CbcHeuristicNodeList.append
            (CbcHeuristicNodeList.mk [Addr 1]) (Addr 2))) = true
  /\ CbcHeuristicNodeList.noNull
       (fst (CbcHeuristicNodeList.append_list
               (CbcHeuristicNodeList.mk [Addr 1])
               (CbcHeuristicNodeList.mk [Addr 3; Addr 4]))) = true.
Proof.
  pose proof (noNull_preserved (CbcHeuristicNodeList.mk [Addr 1])
                (CbcHeuristicNodeList.mk [Addr 3; Addr 4]) (Addr 2)
                eq_refl eq_refl ltac:(discriminate)) as H.
  split; apply H.
Defined.

(** ** farFrom (line 50)

    The member is only declared.  Whatever its body, it cannot be false on
    every record identical to a stored one and true on every record that
    shares no branching object with any stored one: a record without
    branching decisions is both, against a list that stores it. *)

Lemma identical_and_disjoint_clash :
  ~ (exists far : list CbcHeuristicNode -> CbcHeuristicNode -> bool,
       forall (stored : list CbcHeuristicNode) (node : CbcHeuristicNode),
         (In node stored -> far stored node = false)
         /\ ((forall s, In s stored -> sharesObject node s = false)
             -> far stored node = true)).
Proof.
  intros (far & H).
  destruct (H [mkNode 0 []] (mkNode 0 [])) as [Hid Hdis].
  assert (H1 : far [mkNode 0 []] (mkNode 0 []) = false)
    by (apply Hid; now left).
  assert (H2 : far [mkNode 0 []] (mkNode 0 []) = true).
  { apply Hdis. intros s [<- | []]. reflexivity. }
  congruence.
Qed.

(** ** The base class *)

Lemma validate_n_id (n : nat) (h : CbcHeuristic.t) :
  CbcHeuristic.validate_n n h = h.
Proof. induction n as [|n IH]; simpl; [reflexivity | exact IH]. Qed.

(** C10.  The default [validate()] of the base class changes no field of
    the heuristic, however often it is called; in particular the when flag
    keeps its value and is not set to 0.  [CbcSerendipity], which does not
    override [validate()], keeps its base object and its when flag. *)
Theorem validate_default_noop :
  forall (h : CbcHeuristic.t) (n : nat) (s : CbcSerendipity.t),
    CbcHeuristic.validate h = h
    /\ CbcHeuristic.when (CbcHeuristic.validate h) = CbcHeuristic.when h
    /\ CbcHeuristic.validate_n n h = h
    /\ CbcSerendipity.validate s = s
    /\ CbcHeuristic.when (CbcSerendipity.base (CbcSerendipity.validate s))
       = CbcHeuristic.when (CbcSerendipity.base s).
Proof.
  intros h n [b]. repeat split. apply validate_n_id.
Qed.

(** ** The bounded search *)

Lemma Qlt_bool_iff (x y : Q) : Qlt_bool x y = true <-> (x < y)%Q.
Proof.
  unfold Qlt_bool. rewrite negb_true_iff. split; intro H.
  - apply Qnot_le_lt. intro Hle. apply Qle_bool_iff in Hle. congruence.
  - destruct (Qle_bool y x) eqn:E; [|reflexivity].
    apply Qle_bool_iff in E. exfalso. exact (Qlt_not_le _ _ H E).
Qed.

Lemma Qlt_bool_false_iff (x y : Q) : Qlt_bool x y = false <-> (y <= x)%Q.
Proof.
  unfold Qlt_bool. rewrite negb_false_iff. apply Qle_bool_iff.
Qed.

Lemma search_nil (budget : nat) (cutoff : double) (best : Incumbent) :
  search budget [] cutoff best = (true, best).
Proof. destruct budget; reflexivity. Qed.

Lemma explore_pos (t : SearchTree) (cutoff : double) (best : Incumbent) :
  (1 <= fst (fst (explore t cutoff best)))%nat.
Proof.
  destruct t as [|x v|lb l r]; simpl.
  - lia.
  - destruct (Qlt_bool v cutoff); simpl; lia.
  - destruct (Qle_bool cutoff lb); simpl; [lia|].
    destruct (explore l cutoff best) as [[n1 c1] b1].
    destruct (explore r c1 b1) as [[n2 c2] b2]. simpl. lia.
Qed.

(** One node evaluated, the rest of the stack by the induction
    hypothesis [IH] of the budget. *)
Ltac rest_by IH E :=
  match type of E with
  | context [exploreStack ?rest ?c ?b] =>
      let E2 := fresh "E2" in
      let H1 := fresh "H1" in
      let H2 := fresh "H2" in
      destruct (exploreStack rest c b) as [[? ?] ?] eqn:E2;
      injection E as <- <- <-;
      destruct (IH _ _ _ _ _ _ E2) as [H1 H2];
      split; intro; [apply H1 | apply H2]; lia
  end.

(** The budgeted search empties its stack exactly when the budget covers
    the nodes of the unbudgeted walk, and then ends with its incumbent. *)
Lemma search_exploreStack (budget : nat) :
  forall (stack : list SearchTree) (cutoff : double) (best : Incumbent)
         (n : nat) (c' : double) (b' : Incumbent),
    exploreStack stack cutoff best = (n, c', b') ->
    ((n <= budget)%nat -> search budget stack cutoff best = (true, b'))
    /\ ((budget < n)%nat -> fst (search budget stack cutoff best) = false).
Proof.
  induction budget as [|b IH]; intros stack cutoff best n c' b' E.
  - destruct stack as [|t rest].
    + simpl in E. injection E as <- <- <-. split; [reflexivity | lia].
    + simpl in E. pose proof (explore_pos t cutoff best) as Hp.
      destruct (explore t cutoff best) as [[n1 c1] b1].
      destruct (exploreStack rest c1 b1) as [[n2 c2] b2].
      injection E as <- <- <-. simpl in Hp. split; [lia | reflexivity].
  - destruct stack as [|t rest].
    + simpl in E. injection E as <- <- <-. split; [reflexivity | lia].
    + destruct t as [|x v|lb l r]; simpl in E |- *.
      * rest_by IH E.
      * destruct (Qlt_bool v cutoff); rest_by IH E.
      * destruct (Qle_bool cutoff lb); [rest_by IH E|].
        specialize (IH (l :: r :: rest) cutoff best). simpl in IH.
        destruct (explore l cutoff best) as [[n1 c1] b1].
        destruct (explore r c1 b1) as [[n2 c2] b2].
        destruct (exploreStack rest c2 b2) as [[n3 c3] b3].
        injection E as <- <- <-.
        destruct (IH _ _ _ eq_refl) as [H1 H2].
        split; intro; [apply H1 | apply H2]; lia.
Qed.

Lemma search_single (budget : nat) (t : SearchTree) (cutoff : double)
    (best : Incumbent) :
  ((fst (fst (explore t cutoff best)) <= budget)%nat ->
   search budget [t] cutoff best = (true, snd (explore t cutoff best)))
  /\ ((budget < fst (fst (explore t cutoff best)))%nat ->
      fst (search budget [t] cutoff best) = false).
Proof.
  pose proof (search_exploreStack budget [t] cutoff best) as H.
  simpl in H. destruct (explore t cutoff best) as [[n c] b]. simpl.
  specialize (H (n + 0)%nat c b eq_refl). rewrite Nat.add_0_r in H. exact H.
Qed.

Lemma leavesAtLeast_not_improving (t : SearchTree) (lb cutoff : double) :
  leavesAtLeast lb t = true -> (cutoff <= lb)%Q -> improving cutoff t = false.
Proof.
  induction t as [|x v|b l IHl r IHr]; simpl; intros H Hc.
  - reflexivity.
  - apply Qlt_bool_false_iff. apply Qle_bool_iff in H.
    now apply Qle_trans with lb.
  - apply andb_true_iff in H as [Hl Hr].
    now rewrite IHl, IHr.
Qed.

(** Under valid bounds the unbudgeted walk ends with an incumbent better
    than the cutoff exactly when the tree holds one; otherwise it leaves
    cutoff and incumbent as they were. *)
Lemma explore_improving (t : SearchTree) :
  forall (cutoff : double) (best : Incumbent),
    validBounds t = true ->
    if improving cutoff t
    then (exists x, snd (explore t cutoff best)
                    = Some (x, snd (fst (explore t cutoff best))))
         /\ (snd (fst (explore t cutoff best)) < cutoff)%Q
    else snd (fst (explore t cutoff best)) = cutoff
         /\ snd (explore t cutoff best) = best.
Proof.
  induction t as [|x v|lb l IHl r IHr]; intros cutoff best Hv; simpl.
  - split; reflexivity.
  - destruct (Qlt_bool v cutoff) eqn:E; simpl.
    + split; [now exists x | now apply Qlt_bool_iff].
    + split; reflexivity.
  - simpl in Hv.
    apply andb_true_iff in Hv as [Hv Hvr].
    apply andb_true_iff in Hv as [Hv Hvl].
    apply andb_true_iff in Hv as [Hbl Hbr].
    destruct (Qle_bool cutoff lb) eqn:Ep.
    + apply Qle_bool_iff in Ep.
      rewrite (leavesAtLeast_not_improving l lb cutoff Hbl Ep).
      rewrite (leavesAtLeast_not_improving r lb cutoff Hbr Ep).
      simpl. split; reflexivity.
    + specialize (IHl cutoff best Hvl).
      destruct (explore l cutoff best) as [[n1 c1] b1]. simpl in IHl.
      specialize (IHr c1 b1 Hvr).
      destruct (explore r c1 b1) as [[n2 c2] b2]. simpl in IHr |- *.
      destruct (improving cutoff l) eqn:El; simpl.
      * destruct IHl as [[x Hx] Hlt].
        destruct (improving c1 r) eqn:Er.
        -- destruct IHr as [Hex Hlt2]. split; [exact Hex|].
           now apply Qlt_trans with c1.
        -- destruct IHr as [-> ->]. split; [now exists x | exact Hlt].
      * destruct IHl as [-> ->]. exact IHr.
Qed.

(** A stack without an integer solution better than the cutoff leaves the
    incumbent as it was, whatever the budget. *)
Lemma search_not_improving (budget : nat) :
  forall (stack : list SearchTree) (cutoff : double) (best : Incumbent),
    forallb (fun t => negb (improving cutoff t)) stack = true ->
    snd (search budget stack cutoff best) = best.
Proof.
  induction budget as [|b IH]; intros stack cutoff best H.
  - destruct stack; reflexivity.
  - destruct stack as [|t rest]; [reflexivity|].
    simpl in H. apply andb_true_iff in H as [Ht Hrest].
    apply negb_true_iff in Ht.
    destruct t as [|x v|lb l r]; simpl in Ht |- *.
    + now apply IH.
    + rewrite Ht. now apply IH.
    + apply orb_false_iff in Ht as [Hl Hr].
      destruct (Qle_bool cutoff lb); apply IH; [exact Hrest|].
      simpl. now rewrite Hl, Hr.
Qed.

Lemma hasIntegral_improving (cutoff : double) (t : SearchTree) :
  hasIntegral t = false -> improving cutoff t = false.
Proof.
  induction t as [|x v|lb l IHl r IHr]; simpl; intro H.
  - reflexivity.
  - discriminate.
  - apply orb_false_iff in H as [Hl Hr]. now rewrite IHl, IHr.
Qed.

(** ** smallBranchAndBound *)

(** C2.  [smallBranchAndBound] returns 0, 1, 2 or 3; bit 1 of the code says
    whether the search finished and bit 0 whether a solution was found.
    With a node budget smaller than the number of nodes the restricted
    problem needs to be solved to proof, the code is 0 or 1 ("not
    finished"); with a budget that covers them, the code is 2 or 3
    ("finished"), and it is 3 when the tree holds a solution better than
    the cutoff and 2 when it holds none (for a tree whose relaxation
    bounds are valid). *)
Theorem smallBranchAndBound_status :
  forall (h : CbcHeuristic.t) (s : OsiSolverInterface) (numberNodes : int)
         (cutoff : double) (name : string),
    let rc :=
      snd (fst (CbcHeuristic.smallBranchAndBound h s numberNodes cutoff name)) in
    let run := search (Z.to_nat numberNodes) [branchTree s] cutoff None in
    (rc = 0 \/ rc = 1 \/ rc = 2 \/ rc = 3)
    /\ Z.testbit rc 1 = fst run
    /\ Z.testbit rc 0 = (match snd run with Some _ => true | None => false end)
    /\ ((Z.to_nat numberNodes < nodesToProof s cutoff)%nat ->
        rc = 0 \/ rc = 1)
    /\ ((nodesToProof s cutoff <= Z.to_nat numberNodes)%nat ->
        (rc = 2 \/ rc = 3)
        /\ (validBounds (branchTree s) = true ->
            rc = if improving cutoff (branchTree s) then 3 else 2)).
Proof.
  intros h s numberNodes cutoff name.
  unfold CbcHeuristic.smallBranchAndBound, nodesToProof.
  pose proof (search_single (Z.to_nat numberNodes) (branchTree s) cutoff None)
    as [Hfin Hnot].
  destruct (search (Z.to_nat numberNodes) [branchTree s] cutoff None)
    as [finished best] eqn:E.
  cbn zeta. simpl fst. simpl snd.
  split; [destruct finished, best; auto|].
  split; [destruct finished, best; reflexivity|].
  split; [destruct finished, best; reflexivity|].
  split.
  - intro Hlt. specialize (Hnot Hlt). simpl in Hnot. subst finished.
    destruct best; auto.
  - intros Hle. specialize (Hfin Hle). injection Hfin as -> ->.
    split; [destruct (snd (explore (branchTree s) cutoff None)); auto|].
    intro Hv.
    pose proof (explore_improving (branchTree s) cutoff None Hv) as Hi.
    destruct (improving cutoff (branchTree s)).
    + destruct Hi as [[x ->] _]. reflexivity.
    + destruct Hi as [_ ->]. reflexivity.
Qed.

(** C8.  [smallBranchAndBound] assigns [newSolution] and
    [newSolutionValue] exactly when it returns 1 or 3, and then the
    incumbent of the search; when it returns 0 or 2 both outputs are as
    before the call; when the restricted problem has no integer
    solution nothing is assigned; and the heuristic is the same after the
    call. *)
Theorem smallBranchAndBound_outputs :
  forall (h : CbcHeuristic.t) (s : OsiSolverInterface) (numberNodes : int)
         (cutoff : double) (name : string)
         (newSolution : list double) (newSolutionValue : double),
    let '(h', rc, w) :=
      CbcHeuristic.smallBranchAndBound h s numberNodes cutoff name in
    h' = h
    /\ ((rc = 1 \/ rc = 3) <-> w <> None)
    /\ ((rc = 0 \/ rc = 2) <-> w = None)
    /\ (w = None ->
        CbcHeuristic.assigned w newSolution newSolutionValue
        = (newSolution, newSolutionValue))
    /\ (forall x v, w = Some (x, v) ->
        CbcHeuristic.assigned w newSolution newSolutionValue = (x, v))
    /\ (hasIntegral (branchTree s) = false -> w = None).
Proof.
  intros h s numberNodes cutoff name newSolution newSolutionValue.
  unfold CbcHeuristic.smallBranchAndBound.
  pose proof (search_not_improving (Z.to_nat numberNodes) [branchTree s]
                cutoff None) as Hno.
  destruct (search (Z.to_nat numberNodes) [branchTree s] cutoff None)
    as [finished best] eqn:E.
  split; [reflexivity|].
  split; [destruct finished, best as [[x v]|]; simpl; split;
          intros; try congruence; try lia; auto|].
  split; [destruct finished, best as [[x v]|]; simpl; split;
          intros; try congruence; try lia; auto|].
  split; [intros ->; reflexivity|].
  split; [intros x v ->; reflexivity|].
  intro Hi. simpl in Hno. apply Hno.
  now rewrite (hasIntegral_improving cutoff _ Hi).
Qed.

(** ** CbcRounding *)

Lemma rowsSatisfied_forall (m : CbcModel) (x : list double) :
  rowsSatisfied m x = true
  <-> forall row, In row (rows m) -> rowSatisfied x row = true.
Proof. unfold rowsSatisfied. apply forallb_forall. Qed.

Lemma rowsSatisfied_violated (m : CbcModel) (x : list double) (row : Row) :
  In row (rows m) -> rowSatisfied x row = false -> rowsSatisfied m x = false.
Proof.
  intros Hin Hv. destruct (rowsSatisfied m x) eqn:E; [|reflexivity].
  rewrite rowsSatisfied_forall in E. specialize (E row Hin). congruence.
Qed.

(** C6.  [CbcRounding::solution] returns 1 only with the fully rounded
    point as its output, and only when that point satisfies every
    constraint row of the model; when the rounded point violates a row the
    call returns 0 and leaves both outputs as they were. *)
Theorem rounding_revalidates_rows :
  forall (r : CbcRounding.t) (m : CbcModel) (objectiveValue : double)
         (newSolution : list double),
    let '(rc, v, x, r') :=
      CbcRounding.solution r m objectiveValue newSolution in
    (rc = 1 ->
     x = CbcRounding.roundedPoint r m
     /\ rowsSatisfied m x = true
     /\ forall row, In row (rows m) -> rowSatisfied x row = true)
    /\ ((exists row, In row (rows m)
                     /\ rowSatisfied (CbcRounding.roundedPoint r m) row = false)
        -> rc = 0 /\ v = objectiveValue /\ x = newSolution).
Proof.
  intros r m objectiveValue newSolution.
  unfold CbcRounding.solution, CbcRounding.roundedPoint.
  destruct (CbcRounding.roundFrom r m 0 (currentSolution m) _) as [x g].
  simpl fst.
  destruct (rowsSatisfied m x) eqn:Erows; simpl.
  - destruct (columnsInBounds m x); simpl.
    + destruct (Qlt_bool (objectiveOf m x) objectiveValue); split.
      * intros _. split; [reflexivity|]. split; [exact Erows|].
        exact (proj1 (rowsSatisfied_forall m x) Erows).
      * intros (row & Hin & Hv).
        rewrite (rowsSatisfied_violated m x row Hin Hv) in Erows.
        discriminate.
      * discriminate.
      * auto.
    + split; [discriminate | auto].
  - split; [discriminate | auto].
Qed.

(** ** The worked instance *)

(** The four return codes of [smallBranchAndBound] are all reached: with
    cutoff 0 a budget of 0 nodes ends unfinished without a solution, 2
    nodes unfinished with one, 3 nodes finished with one; with cutoff -10
    the root is dropped and 1 node finishes without a solution. *)
Example smallBranchAndBound_codes :
  map (fun bc : int * double =>
         snd (fst (CbcHeuristic.smallBranchAndBound Knapsack.heuristic
                     Knapsack.knapsackSolver (fst bc) (snd bc) "knapsack")))
      [(0, 0%Q); (2, 0%Q); (1, (-10)%Q); (3, 0%Q)]
  = [0; 1; 2; 3]
  /\ nodesToProof Knapsack.knapsackSolver 0%Q = 3%nat
  /\ validBounds (branchTree Knapsack.knapsackSolver) = true.
Proof. repeat split. Qed.

(** Section 8, end-to-end: with capacity 4 the rounding heuristic rounds
    [0.7, 0.3, 0.9] to [1, 0, 1] and reports 1 with objective -8; with
    capacity 2 the rounded point violates the row and the call reports 0
    with both outputs as they were. *)
Example rounding_knapsack :
  (let '(rc, v, x, _) :=
     CbcRounding.solution Knapsack.rounding (Knapsack.model 4%Q) 0%Q [] in
   (rc, v, x)) = (1, (-8)%Q, [1%Q; 0%Q; 1%Q])
  /\ (let '(rc, v, x, _) :=
        CbcRounding.solution Knapsack.rounding (Knapsack.model 2%Q) 0%Q [] in
      (rc, v, x)) = (0, 0%Q, []).
Proof. split; reflexivity. Qed.

(** * Further properties of the inline code *)

(** ** The destructor of the node list *)

Lemma to_int_last (n : Z) :
  0 <= n <= 2 ^ 31 -> to_int ((n - 1) mod 2 ^ 64) = n - 1.
Proof.
  intro Hn. unfold to_int.
  destruct (Z.eq_dec n 0) as [-> | Hz]; [reflexivity|].
  rewrite (Z.mod_small (n - 1) (2 ^ 64)) by lia.
  rewrite (Z.mod_small (n - 1) (2 ^ 32)) by lia.
  cbv zeta. destruct (Z.ltb_spec (n - 1) (2 ^ 31)); [reflexivity | lia].
Qed.

Lemma firstn_succ_nth_error {A : Type} (l : list A) :
  forall (i : nat) (x : A),
    nth_error l i = Some x -> firstn (S i) l = firstn i l ++ [x].
Proof.
  induction l as [|y l IH]; intros i x H.
  - destruct i; discriminate.
  - destruct i as [|i]; simpl in *.
    + now injection H as ->.
    + f_equal. now apply IH.
Qed.

(** The loop deletes the first [k] entries, last to first. *)
Lemma deleteDown_firstn (nodes : list ptr) :
  forall (k : nat) (h : Heap),
    (k <= List.length nodes)%nat ->
    deleteDown k nodes h = deleteList (rev (firstn k nodes)) h.
Proof.
  induction k as [|i IH]; intros h Hk; [reflexivity|].
  destruct (nth_error nodes i) as [p|] eqn:E.
  - rewrite (firstn_succ_nth_error nodes i p E), rev_app_distr.
    simpl. rewrite E. destruct (delete p h) as [h'|]; [|reflexivity].
    apply IH. lia.
  - apply nth_error_None in E. lia.
Qed.

Lemma destroy_deleteList (l : CbcHeuristicNodeList.t) (h : Heap) :
  Z.of_nat (CbcHeuristicNodeList.size l) <= 2 ^ 31 ->
  destroy l h = deleteList (rev (CbcHeuristicNodeList.nodes_ l)) h.
Proof.
  intro Hs. unfold destroy, lastIndex.
  rewrite to_int_last by lia.
  replace (Z.of_nat (CbcHeuristicNodeList.size l) - 1 + 1)
    with (Z.of_nat (CbcHeuristicNodeList.size l)) by lia.
  rewrite Nat2Z.id. unfold CbcHeuristicNodeList.size.
  rewrite deleteDown_firstn by lia. now rewrite firstn_all.
Qed.

Lemma holds_In (ps : list ptr) (a : positive) :
  holds ps a = true <-> In a (addresses ps).
Proof.
  unfold holds. rewrite existsb_exists. split.
  - intros (b & Hb & E). apply Pos.eqb_eq in E. now subst.
  - intro H. exists a. split; [exact H | apply Pos.eqb_refl].
Qed.

Lemma addresses_app (ps qs : list ptr) :
  addresses (ps ++ qs) = addresses ps ++ addresses qs.
Proof.
  induction ps as [|[|a] ps IH]; simpl; [reflexivity | exact IH |].
  now rewrite IH.
Qed.

Lemma addresses_rev (ps : list ptr) :
  addresses (rev ps) = rev (addresses ps).
Proof.
  induction ps as [|[|a] ps IH]; simpl; [reflexivity | |].
  - rewrite addresses_app, IH. simpl. apply app_nil_r.
  - rewrite addresses_app, IH. reflexivity.
Qed.

Lemma holds_rev (ps : list ptr) (a : positive) :
  holds (rev ps) a = holds ps a.
Proof.
  apply eq_true_iff_eq. rewrite !holds_In, addresses_rev.
  symmetry. apply in_rev.
Qed.

Lemma Deletable_rev (ps : list ptr) (h : Heap) :
  Deletable (rev ps) h <-> Deletable ps h.
Proof.
  unfold Deletable. rewrite addresses_rev. split; intros [Hn Hl]; split.
  - rewrite <- (rev_involutive (addresses ps)). now apply NoDup_rev.
  - intros a Ha. apply Hl. now apply in_rev in Ha.
  - now apply NoDup_rev.
  - intros a Ha. apply Hl. now apply in_rev.
Qed.

Lemma release_other (a b : positive) (h : Heap) :
  a <> b -> release a h b = h b.
Proof.
  intro H. unfold release. destruct (Pos.eqb_spec a b); congruence.
Qed.

Lemma release_same (a : positive) (h : Heap) : release a h a = false.
Proof. unfold release. now rewrite Pos.eqb_refl. Qed.

(** Deleting a vector of pointers one after the other is defined exactly
    on the free stores for which it is deletable, and releases what the
    vector holds. *)
Lemma deleteList_spec (ps : list ptr) :
  forall h : Heap,
    match deleteList ps h with
    | Some h' =>
        Deletable ps h /\ forall b, h' b = h b && negb (holds ps b)
    | None => ~ Deletable ps h
    end.
Proof.
  induction ps as [|[|a] ps IH]; intro h; simpl.
  - split; [split; [constructor | intros a []]|].
    intro b. unfold holds. simpl. now rewrite andb_true_r.
  - exact (IH h).
  - destruct (h a) eqn:Ea.
    + specialize (IH (release a h)).
      destruct (deleteList ps (release a h)) as [h'|].
      * destruct IH as [[Hn Hl] Hb]. split; [split|].
        -- constructor; [|exact Hn]. intro Hin.
           specialize (Hl a Hin). rewrite release_same in Hl. discriminate.
        -- intros b [<- | Hin]; [exact Ea|].
           specialize (Hl b Hin). unfold release in Hl.
           destruct (Pos.eqb a b); [discriminate | exact Hl].
        -- intro b. rewrite Hb. unfold holds, release. simpl.
           rewrite (Pos.eqb_sym b a).
           destruct (Pos.eqb a b); simpl;
             [now rewrite andb_false_r | reflexivity].
      * intros [Hn Hl]. apply IH. inversion Hn as [|? ? Hnot Hn']; subst.
        split; [exact Hn'|]. intros b Hin.
        rewrite release_other; [apply Hl; now right|].
        intros ->. contradiction.
    + intros [_ Hl]. specialize (Hl a (or_introl eq_refl)). congruence.
Qed.

Lemma destroy_spec (l : CbcHeuristicNodeList.t) (h : Heap) :
  Z.of_nat (CbcHeuristicNodeList.size l) <= 2 ^ 31 ->
  match destroy l h with
  | Some h' =>
      Deletable (CbcHeuristicNodeList.nodes_ l) h
      /\ forall b, h' b = h b && negb (holds (CbcHeuristicNodeList.nodes_ l) b)
  | None => ~ Deletable (CbcHeuristicNodeList.nodes_ l) h
  end.
Proof.
  intro Hs. rewrite (destroy_deleteList l h Hs).
  pose proof (deleteList_spec (rev (CbcHeuristicNodeList.nodes_ l)) h) as H.
  destruct (deleteList _ h) as [h'|].
  - destruct H as [Hd Hb]. split; [now apply Deletable_rev|].
    intro b. now rewrite Hb, holds_rev.
  - now rewrite Deletable_rev in H.
Qed.

(** X1.  For a list of at most 2^31 entries the destructor is defined
    exactly when the addresses the list holds are pairwise distinct and
    alive; it then releases exactly these objects and no other, null
    entries being passed over. *)
Theorem destroy_releases_stored :
  forall (l : CbcHeuristicNodeList.t) (h : Heap),
    Z.of_nat (CbcHeuristicNodeList.size l) <= 2 ^ 31 ->
    (destroy l h <> None <-> Deletable (CbcHeuristicNodeList.nodes_ l) h)
    /\ (forall h', destroy l h = Some h' ->
        forall b,
          h' b = h b && negb (holds (CbcHeuristicNodeList.nodes_ l) b)).
Proof.
  intros l h Hs. pose proof (destroy_spec l h Hs) as H.
  destruct (destroy l h) as [h1|]; split.
  - split; [intros _; apply H | discriminate].
  - intros h' E b. injection E as <-. apply H.
  - split; [congruence | intro Hd; contradiction].
  - discriminate.
Qed.

(** X1 on a list of two records and a null entry. *)
Lemma destroy_releases_stored_witness :
  (destroy (CbcHeuristicNodeList.mk [Addr 1; NULL; Addr 2])
     (fun a => Pos.leb a 3) <> None
   <-> Deletable [Addr 1; NULL; Addr 2] (fun a => Pos.leb a 3))
  /\ (forall h',
        destroy (CbcHeuristicNodeList.mk [Addr 1; NULL; Addr 2])
          (fun a => Pos.leb a 3) = Some h' ->
        forall b,
          h' b = Pos.leb b 3 && negb (holds [Addr 1; NULL; Addr 2] b)).
Proof.
  exact (destroy_releases_stored
           (CbcHeuristicNodeList.mk [Addr 1; NULL; Addr 2])
           (fun a => Pos.leb a 3) ltac:(simpl; lia)).
Defined.

(** X2.  The index of the destructor's loop is an [int]: for a list of
    more than 2^31 and at most 2^32 entries it starts negative, the loop
    body never runs and no stored record is released. *)
Theorem destroy_index_wraps :
  forall (l : CbcHeuristicNodeList.t) (h : Heap),
    2 ^ 31 < Z.of_nat (CbcHeuristicNodeList.size l) <= 2 ^ 32 ->
    destroy l h = Some h.
Proof.
  intros l h Hs. unfold destroy, lastIndex, to_int.
  remember (Z.of_nat (CbcHeuristicNodeList.size l)) as n eqn:En.
  rewrite (Z.mod_small (n - 1) (2 ^ 64)) by lia.
  rewrite (Z.mod_small (n - 1) (2 ^ 32)) by lia.
  cbv zeta. destruct (Z.ltb_spec (n - 1) (2 ^ 31)) as [Hlt | Hge]; [lia|].
  assert (E : Z.to_nat (n - 1 - 2 ^ 32 + 1) = O) by lia.
  rewrite E. reflexivity.
Qed.





(** X2 on a list of 2^31 + 1 null entries. *)
Lemma destroy_index_wraps_witness :
  destroy (CbcHeuristicNodeList.mk (repeat NULL (Z.to_nat (2 ^ 31 + 1))))
    (fun _ => true)
  = Some (fun _ => true).
Proof.
  apply destroy_index_wraps.
  unfold CbcHeuristicNodeList.size, CbcHeuristicNodeList.nodes_.
  rewrite repeat_length, Z2Nat.id by lia. lia.
Defined.

(** ** Composition of the two appends *)

Lemma append_all_nodes (hs : list ptr) (l : CbcHeuristicNodeList.t) :
  CbcHeuristicNodeList.nodes_ (fst (CbcHeuristicNodeList.append_all l hs))
  = CbcHeuristicNodeList.nodes_ l ++ hs.
Proof.
  revert l. induction hs as [|p hs IH]; intro l; simpl.
  - now rewrite app_nil_r.
  - specialize (IH (CbcHeuristicNodeList.mk (CbcHeuristicNodeList.nodes_ l ++ [p]))).
    destruct (CbcHeuristicNodeList.append_all _ hs) as [l2 hs2].
    simpl in *. rewrite IH, <- app_assoc. reflexivity.
Qed.

(** X5.  Appending records one at a time leaves the list that one bulk
    append of a list holding them leaves; a bulk append of [b] and then of
    [c] into [a] leaves the list that appending [c] into [b] and then [b]
    into [a] leaves, with every argument empty afterwards; no entry is
    lost or duplicated by a bulk append, and the bulk append of an empty
    list changes nothing. *)
Theorem appends_compose :
  forall (a b c : CbcHeuristicNodeList.t) (hs : list ptr),
    fst (CbcHeuristicNodeList.append_all a hs)
    = fst (CbcHeuristicNodeList.append_list a (CbcHeuristicNodeList.mk hs))
    /\ (let '(a1, b1) := CbcHeuristicNodeList.append_list a b in
        let '(a2, c2) := CbcHeuristicNodeList.append_list a1 c in
        let '(b3, c3) := CbcHeuristicNodeList.append_list b c in
        let '(a4, b4) := CbcHeuristicNodeList.append_list a b3 in
        a2 = a4
        /\ CbcHeuristicNodeList.size b1 = O /\ CbcHeuristicNodeList.size c2 = O
        /\ CbcHeuristicNodeList.size c3 = O /\ CbcHeuristicNodeList.size b4 = O
        /\ CbcHeuristicNodeList.nodes_ a1 ++ CbcHeuristicNodeList.nodes_ b1
           = CbcHeuristicNodeList.nodes_ a ++ CbcHeuristicNodeList.nodes_ b)
    /\ CbcHeuristicNodeList.append_list a CbcHeuristicNodeList.new
       = (a, CbcHeuristicNodeList.new).
Proof.
  intros [a] [b] [c] hs. split; [|split].
  - pose proof (append_all_nodes hs (CbcHeuristicNodeList.mk a)) as H.
    destruct (fst (CbcHeuristicNodeList.append_all _ hs)) as [n].
    simpl in *. now rewrite H.
  - simpl. rewrite app_assoc, app_nil_r. repeat split.
  - unfold CbcHeuristicNodeList.append_list, CbcHeuristicNodeList.new. simpl.
    now rewrite app_nil_r.
Qed.

(** ** Sequences of setter calls *)

Lemma lastOf_step {A : Type} (pick : Calls.Base -> option A)
    (get : CbcHeuristic.t -> A) :
  (forall h c,
     get (Calls.call h c)
     = match pick c with Some v => v | None => get h end) ->
  forall cs h, get (Calls.run h cs) = Calls.lastOf pick cs (get h).
Proof.
  intros Hstep cs. unfold Calls.run, Calls.lastOf.
  induction cs as [|c cs IH]; intro h; simpl; [reflexivity|].
  rewrite IH, Hstep. reflexivity.
Qed.

Lemma untouched_step {A : Type} (get : CbcHeuristic.t -> A) :
  (forall h c, get (Calls.call h c) = get h) ->
  forall cs h, get (Calls.run h cs) = get h.
Proof.
  intros Hstep cs. unfold Calls.run.
  induction cs as [|c cs IH]; intro h; simpl; [reflexivity|].
  rewrite IH. apply Hstep.
Qed.

(** X6.  After any sequence of calls of the inline setters and of
    [validate()], each getter returns the argument of the last call of its
    setter, or what it returned before the sequence when its setter was
    not called; the generator, [howOften_], [decayFactor_] and [runNodes_]
    are as before. *)
Theorem setters_last_call_wins :
  forall (h : CbcHeuristic.t) (cs : list Calls.Base),
    let h' := Calls.run h cs in
    CbcHeuristic.when h' = Calls.lastOf Calls.whenOf cs (CbcHeuristic.when h)
    /\ CbcHeuristic.numberNodes h'
       = Calls.lastOf Calls.numberNodesOf cs (CbcHeuristic.numberNodes h)
    /\ CbcHeuristic.feasibilityPumpOptions h'
       = Calls.lastOf Calls.feasibilityPumpOptionsOf cs
           (CbcHeuristic.feasibilityPumpOptions h)
    /\ CbcHeuristic.model_ h'
       = Calls.lastOf Calls.modelOf cs (CbcHeuristic.model_ h)
    /\ CbcHeuristic.fractionSmall h'
       = Calls.lastOf Calls.fractionSmallOf cs (CbcHeuristic.fractionSmall h)
    /\ CbcHeuristic.heuristicName h'
       = Calls.lastOf Calls.heuristicNameOf cs (CbcHeuristic.heuristicName h)
    /\ CbcHeuristic.randomNumberGenerator_ h'
       = CbcHeuristic.randomNumberGenerator_ h
    /\ CbcHeuristic.howOften_ h' = CbcHeuristic.howOften_ h
    /\ CbcHeuristic.decayFactor_ h' = CbcHeuristic.decayFactor_ h
    /\ CbcHeuristic.runNodes_ h' = CbcHeuristic.runNodes_ h.
Proof.
  intros h cs. cbn zeta.
  repeat split;
    first [ apply lastOf_step; intros ? []; reflexivity
          | apply untouched_step; intros ? []; reflexivity ].
Qed.





